(** * Coherent_One_Shot: the QSP layer, its losses and the model builder

    A shallow embedding of [src/qsp_models/qsp_layers.py].  Tensors of
    [tf.float32] / [tf.complex64] scalars are modelled over the exact reals
    of the Standard Library: a complex scalar is a pair of reals, a batch of
    2x2 complex matrices is a list of four-entry records, and Python control
    flow that can raise is threaded through a small error monad. *)

From Stdlib Require Import Reals Lra Lia ZArith List Epsilon.
Import ListNotations.

#[local] Open Scope R_scope.

(** ** Complex scalars (tf.complex64, exact) *)

Record C : Type := mkC { Re : R; Im : R }.

Definition Czero : C := mkC 0 0.
Definition Cone : C := mkC 1 0.
Definition Cimag : C := mkC 0 1.

Definition Cadd (a b : C) : C := mkC (Re a + Re b) (Im a + Im b).
Definition Csub (a b : C) : C := mkC (Re a - Re b) (Im a - Im b).
Definition Cmul (a b : C) : C :=
  mkC (Re a * Re b - Im a * Im b) (Re a * Im b + Im a * Re b).
Definition Cconj (a : C) : C := mkC (Re a) (- Im a).
Definition Cscal (r : R) (a : C) : C := mkC (r * Re a) (r * Im a).

(** [tf.abs] on a complex tensor: the modulus. *)
Definition Cabs (a : C) : R := sqrt (Re a * Re a + Im a * Im a).

(** [tf.complex(real=0.0, imag=x)] *)
Definition tf_complex (re im : R) : C := mkC re im.

(** [tf.cast(x, tf.complex64)] of a real scalar. *)
Definition cast_complex (x : R) : C := mkC x 0.

(** ** 2x2 complex matrices *)

Record M2 : Type := mkM { m00 : C; m01 : C; m10 : C; m11 : C }.

Definition I2 : M2 := mkM Cone Czero Czero Cone.

(** [tf.constant([[0.0, 1], [1, 0]], dtype=tf.complex64)] *)
Definition pauli_x : M2 := mkM Czero Cone Cone Czero.

(** [tf.constant([[1.0, 0], [0, -1]], dtype=tf.complex64)] *)
Definition pauli_z : M2 := mkM Cone Czero Czero (mkC (-1) 0).

Definition madd (A B : M2) : M2 :=
  mkM (Cadd (m00 A) (m00 B)) (Cadd (m01 A) (m01 B))
      (Cadd (m10 A) (m10 B)) (Cadd (m11 A) (m11 B)).

(** One slice of [tf.matmul]. *)
Definition mmul (A B : M2) : M2 :=
  mkM (Cadd (Cmul (m00 A) (m00 B)) (Cmul (m01 A) (m10 B)))
      (Cadd (Cmul (m00 A) (m01 B)) (Cmul (m01 A) (m11 B)))
      (Cadd (Cmul (m10 A) (m00 B)) (Cmul (m11 A) (m10 B)))
      (Cadd (Cmul (m10 A) (m01 B)) (Cmul (m11 A) (m11 B))).

(** One slice of [tf.multiply]: the elementwise product. *)
Definition hadamard (A B : M2) : M2 :=
  mkM (Cmul (m00 A) (m00 B)) (Cmul (m01 A) (m01 B))
      (Cmul (m10 A) (m10 B)) (Cmul (m11 A) (m11 B)).

(** Scalar multiple [c * A]; used by the specification's [exp(i*phi*Z)]. *)
Definition mscale (c : C) (A : M2) : M2 :=
  mkM (Cmul c (m00 A)) (Cmul c (m01 A)) (Cmul c (m10 A)) (Cmul c (m11 A)).

Definition mscaleR (r : R) (A : M2) : M2 :=
  mkM (Cscal r (m00 A)) (Cscal r (m01 A)) (Cscal r (m10 A)) (Cscal r (m11 A)).

(** Conjugate transpose. *)
Definition mdagger (A : M2) : M2 :=
  mkM (Cconj (m00 A)) (Cconj (m10 A)) (Cconj (m01 A)) (Cconj (m11 A)).

(** A scalar tiled over a 2x2 slice: [tf.tile(x, [.., 2, 2])]. *)
Definition tile22 (c : C) : M2 := mkM c c c c.

(** ** The matrix exponential *)

(** The [k]-th term [A^k / k!] of the exponential series. *)
Fixpoint expm_term (A : M2) (k : nat) : M2 :=
  match k with
  | O => I2
  | S k' => mscaleR (/ INR (S k')) (mmul (expm_term A k') A)
  end.

(** Partial sums [sum_{k <= n} A^k / k!]. *)
Fixpoint expm_psum (A : M2) (n : nat) : M2 :=
  match n with
  | O => expm_term A O
  | S n' => madd (expm_psum A n') (expm_term A (S n'))
  end.

(** The limit of a real sequence, when it has one. *)
Definition lim_seq (u : nat -> R) : R :=
  epsilon (inhabits 0) (fun l => Un_cv u l).

Definition lim_entry (A : M2) (e : M2 -> C) : C :=
  mkC (lim_seq (fun n => Re (e (expm_psum A n))))
      (lim_seq (fun n => Im (e (expm_psum A n)))).

(** Modelled from the spec: [tf.linalg.expm] is TensorFlow's, not this
    repository's; section 4.1 fixes it as the standard complex matrix
    exponential (power-series definition), taken here entrywise as the
    limit of the partial sums. *)
Definition expm (A : M2) : M2 :=
  mkM (lim_entry A m00) (lim_entry A m01) (lim_entry A m10) (lim_entry A m11).

(** ** Python outcomes *)

Inductive pyerror : Type :=
| IndexError            (* list index out of range *)
| ValueError            (* a value of the wrong kind, e.g. [None] for a tensor *)
| UnboundLocalError     (* a local variable read before assignment *)
| InvalidArgumentError  (* raised by a TensorFlow kernel *)
| StagingError.         (* autograph's wrapper for an error met while tracing *)

Inductive result (A : Type) : Type :=
| Ok (a : A)
| Raise (e : pyerror).

Arguments Ok {A} a.
Arguments Raise {A} e.

Definition bind {A B : Type} (r : result A) (k : A -> result B) : result B :=
  match r with
  | Ok a => k a
  | Raise e => Raise e
  end.

Notation "x <- r ;; k" := (bind r (fun x => k))
  (at level 61, r at next level, right associativity).

(** ** The QSP layer *)

Record QSP : Type := mkQSP {
  poly_deg : Z;
  convention : Z;
  phis : list R
}.

(** [phi_init(shape=(n, 1), dtype=tf.float32)]: the random-uniform kernel
    refuses a negative dimension; otherwise it draws [n] scalars, the [k]-th
    of which is [draw k]. *)
Definition phi_init (draw : nat -> R) (n : Z) : result (list R) :=
  if (n <? 0)%Z then Raise InvalidArgumentError
  else Ok (map draw (seq 0 (Z.to_nat n))).

(** [QSP.__init__(self, poly_deg, convention)] *)
Definition QSP_init (draw : nat -> R) (poly_deg convention : Z) : result QSP :=
  v <- phi_init draw (poly_deg + 1) ;;
  Ok (mkQSP poly_deg convention v).

(** [range(n)] *)
Definition py_range (n : Z) : list nat := seq 0 (Z.to_nat n).

(** [tf.repeat(tf.expand_dims(m, axis=0), [batch_dim], axis=0)] *)
Definition tf_repeat (m : M2) (batch_dim : nat) : list M2 := repeat m batch_dim.

Definition zip_with {A B D : Type} (f : A -> B -> D) (xs : list A) (ys : list B)
  : list D :=
  map (fun p => f (fst p) (snd p)) (combine xs ys).

(** Batched [tf.multiply], [tf.matmul] and [tf.linalg.expm]. *)
Definition tf_multiply (a b : list M2) : list M2 := zip_with hadamard a b.
Definition tf_matmul (a b : list M2) : list M2 := zip_with mmul a b.
Definition tf_expm (a : list M2) : list M2 := map expm a.

(** The tiled X rotations [wx] (lines 47-55). *)
Definition x_rotations (th : list R) : list M2 :=
  let batch_dim := length th in
  let px := tf_repeat pauli_x batch_dim in
  let rot_x_arg := map (fun t => tile22 (tf_complex 0 t)) th in
  tf_expm (tf_multiply px rot_x_arg).

(** [self.phis[k]]: slicing the variable out of bounds is refused. *)
Definition phis_at (v : list R) (k : nat) : result R :=
  match nth_error v k with
  | Some phi => Ok phi
  | None => Raise InvalidArgumentError
  end.

(** One pass of the loop body of lines 64-70. *)
Definition z_rotation (v : list R) (batch_dim : nat) (k : nat)
  : result (list M2) :=
  phi <- phis_at v k ;;
  let pz := tf_repeat pauli_z batch_dim in
  let rot_z_arg := repeat (tile22 (tf_complex 0 phi)) batch_dim in
  Ok (tf_expm (tf_multiply pz rot_z_arg)).

(** The loop of lines 62-71, appending one batch of Z rotations per [k]. *)
Fixpoint z_rotations_loop (v : list R) (batch_dim : nat) (ks : list nat)
  (acc : list (list M2)) : result (list (list M2)) :=
  match ks with
  | [] => Ok acc
  | k :: ks' =>
      rz <- z_rotation v batch_dim k ;;
      z_rotations_loop v batch_dim ks' (acc ++ [rz])
  end.

(** [z_rotations[0]] on a Python list. *)
Definition py_head {A : Type} (l : list A) : result A :=
  match l with
  | [] => Raise IndexError
  | x :: _ => Ok x
  end.

(** Lines 44-76 of [QSP.call]: the batch of circuit unitaries [u]. *)
Definition QSP_unitary (l : QSP) (th : list R) : result (list M2) :=
  let batch_dim := length th in
  let wx := x_rotations th in
  z_rotations <- z_rotations_loop (phis l) batch_dim
                   (py_range (poly_deg l + 1)) [] ;;
  u <- py_head z_rotations ;;
  Ok (fold_left (fun u rz => tf_matmul (tf_matmul u wx) rz)
                (tl z_rotations) u).

(** Lines 78-83: the readout; falling off the end returns [None]. *)
Definition QSP_readout (conv : Z) (u : list M2) : option (list R * list R) :=
  if (conv =? 0)%Z then
    Some (map (fun m => Re (m00 m)) u, map (fun m => Im (m00 m)) u)
  else if (conv =? 1)%Z then
    Some (map (fun m => Re (m00 m)) u, map (fun m => Im (m01 m)) u)
  else None.

(** [QSP.call(self, th)] *)
Definition QSP_call (l : QSP) (th : list R)
  : result (option (list R * list R)) :=
  u <- QSP_unitary l th ;;
  Ok (QSP_readout (convention l) u).

(** ** Loss functions *)

(** A [float32] scalar as far as the reductions need it: a real number, or
    one of the two values an empty reduction produces. *)
Inductive xreal : Type :=
| Fin (r : R)
| NegInf
| NaN.

(** [tf.subtract] on rank-1 tensors, with broadcasting of a length-1 side. *)
Definition tf_subtract (a b : list C) : result (list C) :=
  if Nat.eqb (length a) (length b) then Ok (zip_with Csub a b)
  else match a, b with
       | [x], _ => Ok (map (fun y => Csub x y) b)
       | _, [y] => Ok (map (fun x => Csub x y) a)
       | _, _ => Raise InvalidArgumentError
       end.

Definition tf_abs (a : list C) : list R := map Cabs a.
Definition tf_square (a : list R) : list R := map (fun x => x * x) a.

Definition reduce_sum (a : list R) : R := fold_left Rplus a 0.

Definition reduce_mean (a : list R) : xreal :=
  match a with
  | [] => NaN
  | _ :: _ => Fin (reduce_sum a / INR (length a))
  end.

Definition reduce_max (a : list R) : xreal :=
  match a with
  | [] => NegInf
  | x :: a' => Fin (fold_left Rmax a' x)
  end.

Definition loss_fn : Type := list C -> list C -> result xreal.

Definition mean_deviation : loss_fn := fun y_true y_pred =>
  d <- tf_subtract y_true y_pred ;;
  let deviations := tf_abs d in
  Ok (reduce_mean deviations).

Definition max_deviation : loss_fn := fun y_true y_pred =>
  d <- tf_subtract y_true y_pred ;;
  let deviations := tf_abs d in
  Ok (reduce_max deviations).

Definition mean_deviation_squared : loss_fn := fun y_true y_pred =>
  d <- tf_subtract y_true y_pred ;;
  let deviations := tf_abs d in
  Ok (reduce_mean (tf_square deviations)).

Definition max_deviation_squared : loss_fn := fun y_true y_pred =>
  d <- tf_subtract y_true y_pred ;;
  let deviations := tf_abs d in
  Ok (reduce_max (tf_square deviations)).

(** ** The model builder *)

Record Model : Type := mkModel {
  model_layer : QSP;
  model_learning_rate : R;
  model_loss : loss_fn;
  model_convention : Z
}.

(** [real_and_imag_parts[0] + 1j * real_and_imag_parts[1]] after the cast to
    [tf.complex64]; a layer that returned [None] has no tensor to cast. *)
Definition combine_streams (out : option (list R * list R)) : result (list C) :=
  match out with
  | None => Raise ValueError
  | Some (re, im) =>
      Ok (zip_with (fun a b => Cadd (cast_complex a) (Cmul Cimag (cast_complex b)))
                   re im)
  end.

(** The graph from [theta_input] to [real_and_imag_parts_added]. *)
Definition forward_graph (l : QSP) (th : list R) : result (list C) :=
  out <- QSP_call l th ;;
  combine_streams out.

(** The layer is called on the symbolic input through autograph, which
    re-raises what the Python body of [call] raised: errors of the classes
    it knows how to rebuild (TensorFlow's own, [ValueError],
    [UnboundLocalError], ...) keep their class, any other, [IndexError]
    among them, comes out as [StagingError]. *)
Definition autograph_reraise (e : pyerror) : pyerror :=
  match e with
  | IndexError => StagingError
  | ValueError => ValueError
  | UnboundLocalError => UnboundLocalError
  | InvalidArgumentError => InvalidArgumentError
  | StagingError => StagingError
  end.

Definition traced_call (l : QSP) (th : list R)
  : result (option (list R * list R)) :=
  match QSP_call l th with
  | Ok out => Ok out
  | Raise e => Raise (autograph_reraise e)
  end.

(** Lines 125-126 on the symbolic input. *)
Definition trace_graph (l : QSP) (th : list R) : result (list C) :=
  out <- traced_call l th ;;
  combine_streams out.


(** Lines 132-141: the local [loss] stays unbound when no branch assigns it. *)
Definition select_loss (mean_or_max squared : Z) : option loss_fn :=
  if (mean_or_max =? 0)%Z then
    if (squared =? 0)%Z then Some mean_deviation
    else if (squared =? 1)%Z then Some mean_deviation_squared
    else None
  else if (mean_or_max =? 1)%Z then
    if (squared =? 0)%Z then Some max_deviation
    else if (squared =? 1)%Z then Some max_deviation_squared
    else None
  else None.

(** Reading a local variable. *)
Definition read_local {A : Type} (v : option A) : result A :=
  match v with
  | Some a => Ok a
  | None => Raise UnboundLocalError
  end.

(** [construct_qsp_model(poly_deg, convention, lr, mean_or_max, squared)].
    [theta_input] stands for the symbolic [tf.keras.Input]: building the
    graph traces the layer's [call] once on it. *)
Definition construct_qsp_model (draw : nat -> R) (theta_input : list R)
  (poly_deg convention : Z) (lr : R) (mean_or_max squared : Z) : result Model :=
  qsp <- QSP_init draw poly_deg convention ;;
  _ <- trace_graph qsp theta_input ;;
  loss <- read_local (select_loss mean_or_max squared) ;;
  Ok (mkModel qsp lr loss convention).

(** ** Specification-side notions *)

(** [R_z(phi) = exp(i*phi*Z)] and [W(theta) = exp(i*theta*X)]. *)
Definition R_z (phi : R) : M2 := expm (mscale (mkC 0 phi) pauli_z).
Definition W_x (theta : R) : M2 := expm (mscale (mkC 0 theta) pauli_x).

(** The factors of the QSP sequence, in order. *)
Inductive factor : Type :=
| FZ (k : nat)   (* the Z rotation by phi_k *)
| FX.            (* the signal rotation *)

Definition qsp_factors (d : nat) : list factor :=
  FZ 0 :: flat_map (fun k => [FX; FZ k]) (seq 1 d).

Definition is_FZ (f : factor) : bool :=
  match f with FZ _ => true | FX => false end.

Definition is_FX (f : factor) : bool :=
  match f with FZ _ => false | FX => true end.

Definition factor_matrix (v : list R) (theta : R) (f : factor) : M2 :=
  match f with
  | FZ k => R_z (nth k v 0)
  | FX => W_x theta
  end.

(** A non-empty product taken left to right; no multiplication for a
    single factor. *)
Definition ordered_product (ms : list M2) : M2 :=
  match ms with
  | [] => I2
  | m :: ms' => fold_left mmul ms' m
  end.

(** [R_z(phi_0) * (W * R_z(phi_1)) * ... * (W * R_z(phi_d))] *)
Definition grouped_product (v : list R) (theta : R) (d : nat) : M2 :=
  fold_left (fun u k => mmul u (mmul (W_x theta) (R_z (nth k v 0))))
            (seq 1 d) (R_z (nth 0 v 0)).

Definition is_unitary (U : M2) : Prop := mmul U (mdagger U) = I2.

(** The layer as [__init__] leaves it for a degree [d >= 0]. *)
Definition layer_wf (l : QSP) (d : nat) : Prop :=
  poly_deg l = Z.of_nat d /\ length (phis l) = S d.

(** [|target_i - pred_i|] *)
Definition deviation_at (t p : list C) (i : nat) : R :=
  Cabs (Csub (nth i t Czero) (nth i p Czero)).

(** [sum_{i < n} f i] *)
Fixpoint sum_below (f : nat -> R) (n : nat) : R :=
  match n with
  | O => 0
  | S n' => sum_below f n' + f n'
  end.

Definition mean_over (f : nat -> R) (n : nat) : R := sum_below f n / INR n.

Definition is_max_over (f : nat -> R) (n : nat) (m : R) : Prop :=
  (exists i, (i < n)%nat /\ f i = m) /\ forall i, (i < n)%nat -> f i <= m.

(** ** Closed forms of the two rotations *)

Definition rot_z (phi : R) : M2 :=
  mkM (mkC (cos phi) (sin phi)) Czero Czero (mkC (cos phi) (- sin phi)).

Definition rot_x (theta : R) : M2 :=
  mkM (mkC (cos theta) 0) (mkC 0 (sin theta))
      (mkC 0 (sin theta)) (mkC (cos theta) 0).

(** The generators [i*phi*Z] and [i*theta*X], entry by entry. *)
Definition gen_z (phi : R) : M2 := mkM (mkC 0 phi) Czero Czero (mkC 0 (- phi)).
Definition gen_x (theta : R) : M2 := mkM Czero (mkC 0 theta) (mkC 0 theta) Czero.

(** [(i*x)^k / k!] and its partial sums. *)
Fixpoint cis_term (x : R) (k : nat) : C :=
  match k with
  | O => Cone
  | S k' => Cscal (/ INR (S k')) (Cmul (cis_term x k') (mkC 0 x))
  end.

Fixpoint cis_psum (x : R) (n : nat) : C :=
  match n with
  | O => cis_term x O
  | S n' => Cadd (cis_psum x n') (cis_term x (S n'))
  end.

(** The unitary of one example, multiplied in the order the loop of
    lines 73-76 takes: [u <- (u * wx) * rz] for each further Z rotation. *)
Definition circuit_at (v : list R) (d : nat) (theta : R) : M2 :=
  fold_left (fun u k => mmul (mmul u (W_x theta)) (R_z (nth k v 0)))
            (seq 1 d) (R_z (nth 0 v 0)).

(** Two runs that both succeed, or both raise the same error. *)
Definition same_outcome {A B : Type} (r : result A) (r' : result B) : Prop :=
  match r, r' with
  | Ok _, Ok _ => True
  | Raise e, Raise e' => e = e'
  | _, _ => False
  end.

(** The sum of the phases, [phi_0 + ... + phi_d]. *)
Definition phase_sum (v : list R) : R := fold_left Rplus v 0.

(** Conjugation by the Pauli Z matrix, [Z * A * Z]: the off-diagonal
    entries change sign. *)
Definition Copp (a : C) : C := mkC (- Re a) (- Im a).

Definition conj_z (A : M2) : M2 :=
  mkM (m00 A) (Copp (m01 A)) (Copp (m10 A)) (m11 A).

(** * Proofs *)

(** ** Limits *)

Lemma lim_seq_unique (u : nat -> R) (l : R) : Un_cv u l -> lim_seq u = l.
Proof.
  intros H. unfold lim_seq.
  apply (UL_sequence u); [ | exact H ].
  apply (epsilon_spec (inhabits 0) (fun l0 => Un_cv u l0)).
  exists l. exact H.
Qed.

Lemma Un_cv_const (c : R) : Un_cv (fun _ => c) c.
Proof.
  intros eps Heps. exists O. intros n _.
  unfold R_dist. rewrite Rminus_diag, Rabs_R0. exact Heps.
Qed.

(** A sequence that follows [v] at half its index converges with [v]. *)
Lemma Un_cv_half (u v : nat -> R) (l : R) :
  (forall j, u (2 * j)%nat = v j) ->
  (forall j, u (S (2 * j)) = v j) ->
  Un_cv v l -> Un_cv u l.
Proof.
  intros He Ho Hv eps Heps.
  destruct (Hv eps Heps) as [N HN].
  exists (2 * N)%nat. intros n Hn.
  destruct (Nat.Even_or_Odd n) as [[j Hj] | [j Hj]]; subst n.
  - rewrite He. apply HN. lia.
  - replace (2 * j + 1)%nat with (S (2 * j)) by lia.
    rewrite Ho. apply HN. lia.
Qed.

(** As above, for a sequence one step behind. *)
Lemma Un_cv_half_shift (u v : nat -> R) (l : R) :
  (forall j, u (S (2 * j)) = v j) ->
  (forall j, u (S (S (2 * j))) = v j) ->
  Un_cv v l -> Un_cv u l.
Proof.
  intros Ho He Hv eps Heps.
  destruct (Hv eps Heps) as [N HN].
  exists (S (2 * N)). intros n Hn.
  destruct (Nat.Even_or_Odd n) as [[j Hj] | [j Hj]]; subst n.
  - destruct j as [ | j]; [ lia | ].
    replace (2 * S j)%nat with (S (S (2 * j))) by lia.
    rewrite He. apply HN. lia.
  - replace (2 * j + 1)%nat with (S (2 * j)) by lia.
    rewrite Ho. apply HN. lia.
Qed.

(** ** The series of [exp(i*x)] *)

Lemma cis_term_parity (x : R) (j : nat) :
  (Re (cis_term x (2 * j)) = (-1) ^ j / INR (fact (2 * j)) * x ^ (2 * j) /\
   Im (cis_term x (2 * j)) = 0) /\
  (Re (cis_term x (S (2 * j))) = 0 /\
   Im (cis_term x (S (2 * j))) =
     (-1) ^ j / INR (fact (2 * j + 1)) * x ^ (2 * j + 1)).
Proof.
  induction j as [ | j [[IHre IHim] [IHre' IHim']]].
  - simpl. repeat split; field.
  - assert (Hev : Re (cis_term x (2 * S j)) =
                  (-1) ^ S j / INR (fact (2 * S j)) * x ^ (2 * S j) /\
                  Im (cis_term x (2 * S j)) = 0).
    { replace (2 * S j)%nat with (S (S (2 * j))) by lia.
      change (cis_term x (S (S (2 * j)))) with
        (Cscal (/ INR (S (S (2 * j))))
               (Cmul (cis_term x (S (2 * j))) (mkC 0 x))).
      cbn [Re Im Cscal Cmul]. rewrite IHre', IHim'.
      replace (2 * j + 1)%nat with (S (2 * j)) by lia.
      rewrite (fact_simpl (S (2 * j))), mult_INR.
      split; [ | ring ].
      rewrite <- !tech_pow_Rmult.
      assert (H1 := INR_fact_neq_0 (S (2 * j))).
      assert (H2 := not_0_INR (S (S (2 * j))) ltac:(lia)).
      field. split; assumption. }
    split; [ exact Hev | ].
    destruct Hev as [Hre Him].
    change (cis_term x (S (2 * S j))) with
      (Cscal (/ INR (S (2 * S j))) (Cmul (cis_term x (2 * S j)) (mkC 0 x))).
    cbn [Re Im Cscal Cmul]. rewrite Hre, Him.
    replace (2 * S j + 1)%nat with (S (2 * S j)) by lia.
    rewrite (fact_simpl (2 * S j)), mult_INR.
    split; [ ring | ].
    rewrite <- (tech_pow_Rmult x (2 * S j)).
    assert (H1 := INR_fact_neq_0 (2 * S j)).
    assert (H2 := not_0_INR (S (2 * S j)) ltac:(lia)).
    field. split; assumption.
Qed.

Lemma cis_psum_re (x : R) (j : nat) :
  Re (cis_psum x (2 * j)) = A1 x j /\ Re (cis_psum x (S (2 * j))) = A1 x j.
Proof.
  assert (Hodd : forall i, Re (cis_psum x (2 * i)) = A1 x i ->
                           Re (cis_psum x (S (2 * i))) = A1 x i).
  { intros i Hi.
    change (cis_psum x (S (2 * i))) with
      (Cadd (cis_psum x (2 * i)) (cis_term x (S (2 * i)))).
    cbn [Re Cadd]. rewrite Hi.
    destruct (cis_term_parity x i) as [_ [H0 _]]. rewrite H0. ring. }
  induction j as [ | j [_ IHo]].
  - split; [ | apply Hodd ]; unfold A1; simpl; field.
  - assert (Hev : Re (cis_psum x (2 * S j)) = A1 x (S j)).
    { replace (2 * S j)%nat with (S (S (2 * j))) by lia.
      change (cis_psum x (S (S (2 * j)))) with
        (Cadd (cis_psum x (S (2 * j))) (cis_term x (S (S (2 * j))))).
      cbn [Re Cadd]. rewrite IHo.
      replace (S (S (2 * j))) with (2 * S j)%nat by lia.
      destruct (cis_term_parity x (S j)) as [[H0 _] _]. rewrite H0.
      unfold A1. rewrite tech5. reflexivity. }
    split; [ exact Hev | apply Hodd; exact Hev ].
Qed.

Lemma cis_psum_im (x : R) (j : nat) :
  Im (cis_psum x (S (2 * j))) = B1 x j /\
  Im (cis_psum x (S (S (2 * j)))) = B1 x j.
Proof.
  assert (Hev : forall i, Im (cis_psum x (S (2 * i))) = B1 x i ->
                          Im (cis_psum x (S (S (2 * i)))) = B1 x i).
  { intros i Hi.
    change (cis_psum x (S (S (2 * i)))) with
      (Cadd (cis_psum x (S (2 * i))) (cis_term x (S (S (2 * i))))).
    cbn [Im Cadd]. rewrite Hi.
    replace (S (S (2 * i))) with (2 * S i)%nat by lia.
    destruct (cis_term_parity x (S i)) as [[_ H0] _]. rewrite H0. ring. }
  induction j as [ | j [_ IHe]].
  - split; [ | apply Hev ]; unfold B1; simpl; field.
  - assert (Hodd : Im (cis_psum x (S (2 * S j))) = B1 x (S j)).
    { change (cis_psum x (S (2 * S j))) with
        (Cadd (cis_psum x (2 * S j)) (cis_term x (S (2 * S j)))).
      cbn [Im Cadd].
      replace (cis_psum x (2 * S j)) with (cis_psum x (S (S (2 * j))))
        by (f_equal; lia).
      rewrite IHe.
      destruct (cis_term_parity x (S j)) as [_ [_ H0]]. rewrite H0.
      unfold B1. rewrite tech5. reflexivity. }
    split; [ exact Hodd | apply Hev; exact Hodd ].
Qed.

Lemma cis_psum_re_cv (x : R) : Un_cv (fun n => Re (cis_psum x n)) (cos x).
Proof.
  apply (Un_cv_half _ (A1 x)); [ | | apply A1_cvg ];
    intros j; apply cis_psum_re.
Qed.

Lemma cis_psum_im_cv (x : R) : Un_cv (fun n => Im (cis_psum x n)) (sin x).
Proof.
  apply (Un_cv_half_shift _ (B1 x)); [ | | apply B1_cvg ];
    intros j; apply cis_psum_im.
Qed.

(** ** Exponentials of the two generators *)

Lemma C_eq (a b : C) : Re a = Re b -> Im a = Im b -> a = b.
Proof. destruct a, b; simpl; intros -> ->; reflexivity. Qed.

Lemma M2_eq (A B : M2) :
  m00 A = m00 B -> m01 A = m01 B -> m10 A = m10 B -> m11 A = m11 B -> A = B.
Proof. destruct A, B; simpl; intros -> -> -> ->; reflexivity. Qed.

Ltac c_ring := apply C_eq; cbn; try ring.
Ltac m_ring := apply M2_eq; c_ring.

Lemma expm_term_gen_z (phi : R) (k : nat) :
  expm_term (gen_z phi) k =
  mkM (cis_term phi k) Czero Czero (cis_term (- phi) k).
Proof.
  induction k as [ | k IH]; [ reflexivity | ].
  change (expm_term (gen_z phi) (S k)) with
    (mscaleR (/ INR (S k)) (mmul (expm_term (gen_z phi) k) (gen_z phi))).
  rewrite IH.
  change (cis_term phi (S k)) with
    (Cscal (/ INR (S k)) (Cmul (cis_term phi k) (mkC 0 phi))).
  change (cis_term (- phi) (S k)) with
    (Cscal (/ INR (S k)) (Cmul (cis_term (- phi) k) (mkC 0 (- phi)))).
  generalize (/ INR (S k)) (cis_term phi k) (cis_term (- phi) k).
  intros r a b. m_ring.
Qed.

Lemma expm_term_gen_x (theta : R) (k : nat) :
  expm_term (gen_x theta) k =
  mkM (mkC (Re (cis_term theta k)) 0) (mkC 0 (Im (cis_term theta k)))
      (mkC 0 (Im (cis_term theta k))) (mkC (Re (cis_term theta k)) 0).
Proof.
  induction k as [ | k IH]; [ reflexivity | ].
  change (expm_term (gen_x theta) (S k)) with
    (mscaleR (/ INR (S k)) (mmul (expm_term (gen_x theta) k) (gen_x theta))).
  rewrite IH.
  change (cis_term theta (S k)) with
    (Cscal (/ INR (S k)) (Cmul (cis_term theta k) (mkC 0 theta))).
  generalize (/ INR (S k)) (cis_term theta k).
  intros r a. m_ring.
Qed.

Lemma expm_psum_gen_z (phi : R) (n : nat) :
  expm_psum (gen_z phi) n =
  mkM (cis_psum phi n) (mkC 0 0) (mkC 0 0) (cis_psum (- phi) n).
Proof.
  induction n as [ | n IH]; [ reflexivity | ].
  change (expm_psum (gen_z phi) (S n)) with
    (madd (expm_psum (gen_z phi) n) (expm_term (gen_z phi) (S n))).
  rewrite IH, expm_term_gen_z.
  change (cis_psum phi (S n)) with
    (Cadd (cis_psum phi n) (cis_term phi (S n))).
  change (cis_psum (- phi) (S n)) with
    (Cadd (cis_psum (- phi) n) (cis_term (- phi) (S n))).
  m_ring.
Qed.

Lemma expm_psum_gen_x (theta : R) (n : nat) :
  expm_psum (gen_x theta) n =
  mkM (mkC (Re (cis_psum theta n)) 0) (mkC 0 (Im (cis_psum theta n)))
      (mkC 0 (Im (cis_psum theta n))) (mkC (Re (cis_psum theta n)) 0).
Proof.
  induction n as [ | n IH]; [ reflexivity | ].
  change (expm_psum (gen_x theta) (S n)) with
    (madd (expm_psum (gen_x theta) n) (expm_term (gen_x theta) (S n))).
  rewrite IH, expm_term_gen_x.
  change (cis_psum theta (S n)) with
    (Cadd (cis_psum theta n) (cis_term theta (S n))).
  m_ring.
Qed.

Lemma Un_cv_ext (u v : nat -> R) (l : R) :
  (forall n, u n = v n) -> Un_cv v l -> Un_cv u l.
Proof.
  intros E Hv eps Heps. destruct (Hv eps Heps) as [N HN].
  exists N. intros n Hn. rewrite E. apply HN. exact Hn.
Qed.

Lemma lim_entry_eq (A : M2) (e : M2 -> C) (c : C) :
  Un_cv (fun n => Re (e (expm_psum A n))) (Re c) ->
  Un_cv (fun n => Im (e (expm_psum A n))) (Im c) ->
  lim_entry A e = c.
Proof.
  intros Hre Him. unfold lim_entry.
  rewrite (lim_seq_unique _ _ Hre), (lim_seq_unique _ _ Him).
  destruct c; reflexivity.
Qed.

Lemma expm_gen_z (phi : R) : expm (gen_z phi) = rot_z phi.
Proof.
  unfold expm, rot_z.
  f_equal; apply lim_entry_eq; cbn [Re Im Czero].
  - apply (Un_cv_ext _ (fun n => Re (cis_psum phi n)));
      [ intros n; rewrite expm_psum_gen_z; reflexivity | apply cis_psum_re_cv ].
  - apply (Un_cv_ext _ (fun n => Im (cis_psum phi n)));
      [ intros n; rewrite expm_psum_gen_z; reflexivity | apply cis_psum_im_cv ].
  - apply (Un_cv_ext _ (fun _ => 0));
      [ intros n; rewrite expm_psum_gen_z; reflexivity | apply Un_cv_const ].
  - apply (Un_cv_ext _ (fun _ => 0));
      [ intros n; rewrite expm_psum_gen_z; reflexivity | apply Un_cv_const ].
  - apply (Un_cv_ext _ (fun _ => 0));
      [ intros n; rewrite expm_psum_gen_z; reflexivity | apply Un_cv_const ].
  - apply (Un_cv_ext _ (fun _ => 0));
      [ intros n; rewrite expm_psum_gen_z; reflexivity | apply Un_cv_const ].
  - rewrite <- (cos_neg phi).
    apply (Un_cv_ext _ (fun n => Re (cis_psum (- phi) n)));
      [ intros n; rewrite expm_psum_gen_z; reflexivity | apply cis_psum_re_cv ].
  - rewrite <- (sin_neg phi).
    apply (Un_cv_ext _ (fun n => Im (cis_psum (- phi) n)));
      [ intros n; rewrite expm_psum_gen_z; reflexivity | apply cis_psum_im_cv ].
Qed.

Lemma expm_gen_x (theta : R) : expm (gen_x theta) = rot_x theta.
Proof.
  unfold expm, rot_x.
  f_equal; apply lim_entry_eq; cbn [Re Im].
  all: first
    [ apply (Un_cv_ext _ (fun n => Re (cis_psum theta n)));
      [ intros n; rewrite expm_psum_gen_x; reflexivity | apply cis_psum_re_cv ]
    | apply (Un_cv_ext _ (fun n => Im (cis_psum theta n)));
      [ intros n; rewrite expm_psum_gen_x; reflexivity | apply cis_psum_im_cv ]
    | apply (Un_cv_ext _ (fun _ => 0));
      [ intros n; rewrite expm_psum_gen_x; reflexivity | apply Un_cv_const ] ].
Qed.

(** The generators as the code builds them and as the specification
    writes them. *)
Lemma code_gen_z (phi : R) :
  hadamard pauli_z (tile22 (tf_complex 0 phi)) = gen_z phi.
Proof. m_ring. Qed.

Lemma code_gen_x (theta : R) :
  hadamard pauli_x (tile22 (tf_complex 0 theta)) = gen_x theta.
Proof. m_ring. Qed.

Lemma spec_gen_z (phi : R) : mscale (mkC 0 phi) pauli_z = gen_z phi.
Proof. m_ring. Qed.

Lemma spec_gen_x (theta : R) : mscale (mkC 0 theta) pauli_x = gen_x theta.
Proof. m_ring. Qed.

Lemma R_z_closed (phi : R) : R_z phi = rot_z phi.
Proof. unfold R_z. rewrite spec_gen_z. apply expm_gen_z. Qed.

Lemma W_x_closed (theta : R) : W_x theta = rot_x theta.
Proof. unfold W_x. rewrite spec_gen_x. apply expm_gen_x. Qed.

Lemma code_rot_z (phi : R) :
  expm (hadamard pauli_z (tile22 (tf_complex 0 phi))) = R_z phi.
Proof. rewrite code_gen_z. unfold R_z. rewrite spec_gen_z. reflexivity. Qed.

Lemma code_rot_x (theta : R) :
  expm (hadamard pauli_x (tile22 (tf_complex 0 theta))) = W_x theta.
Proof. rewrite code_gen_x. unfold W_x. rewrite spec_gen_x. reflexivity. Qed.

(** ** Batches *)

Lemma zip_with_map_map {A B D E : Type} (f : B -> D -> E) (g : A -> B)
  (h : A -> D) (l : list A) :
  zip_with f (map g l) (map h l) = map (fun a => f (g a) (h a)) l.
Proof.
  unfold zip_with. induction l as [ | a l IH]; simpl; [ | rewrite IH ];
    reflexivity.
Qed.

Lemma repeat_as_map {A B : Type} (b : B) (l : list A) :
  repeat b (length l) = map (fun _ => b) l.
Proof. induction l as [ | a l IH]; simpl; [ | rewrite IH ]; reflexivity. Qed.

Lemma x_rotations_map (th : list R) : x_rotations th = map W_x th.
Proof.
  unfold x_rotations, tf_expm, tf_multiply, tf_repeat.
  rewrite repeat_as_map, zip_with_map_map, map_map.
  apply map_ext. intros t. apply code_rot_x.
Qed.

Lemma z_rotation_ok (v : list R) (th : list R) (k : nat) :
  (k < length v)%nat ->
  z_rotation v (length th) k = Ok (map (fun _ => R_z (nth k v 0)) th).
Proof.
  intros Hk. unfold z_rotation, phis_at.
  destruct (nth_error v k) as [phi | ] eqn:E.
  - rewrite (nth_error_nth _ _ 0 E). cbn [bind].
    unfold tf_expm, tf_multiply, tf_repeat.
    rewrite !repeat_as_map, zip_with_map_map, map_map.
    f_equal. apply map_ext. intros _. apply code_rot_z.
  - apply nth_error_None in E. lia.
Qed.

Lemma z_rotations_loop_ok (v : list R) (th : list R) (ks : list nat) :
  Forall (fun k => (k < length v)%nat) ks ->
  forall acc,
    z_rotations_loop v (length th) ks acc =
    Ok (acc ++ map (fun k => map (fun _ => R_z (nth k v 0)) th) ks).
Proof.
  induction 1 as [ | k ks Hk _ IH]; intros acc; simpl.
  - rewrite app_nil_r. reflexivity.
  - rewrite (z_rotation_ok _ _ _ Hk). cbn [bind].
    rewrite IH, <- app_assoc. reflexivity.
Qed.

Lemma tf_matmul_map {A : Type} (g h : A -> M2) (l : list A) :
  tf_matmul (map g l) (map h l) = map (fun a => mmul (g a) (h a)) l.
Proof. apply zip_with_map_map. Qed.

Lemma matmul_fold (th : list R) (v : list R) (ks : list nat) :
  forall g : R -> M2,
    fold_left (fun u rz => tf_matmul (tf_matmul u (map W_x th)) rz)
              (map (fun k => map (fun _ => R_z (nth k v 0)) th) ks)
              (map g th) =
    map (fun t => fold_left
                    (fun u k => mmul (mmul u (W_x t)) (R_z (nth k v 0)))
                    ks (g t)) th.
Proof.
  induction ks as [ | k ks IH]; intros g; cbn [fold_left map];
    [ reflexivity | ].
  rewrite !tf_matmul_map.
  rewrite (IH (fun t => mmul (mmul (g t) (W_x t)) (R_z (nth k v 0)))).
  reflexivity.
Qed.

(** The forward call computes, example by example, [circuit_at]. *)
Lemma QSP_unitary_ok (l : QSP) (d : nat) (th : list R) :
  layer_wf l d ->
  QSP_unitary l th = Ok (map (circuit_at (phis l) d) th).
Proof.
  intros [Hd Hlen]. unfold QSP_unitary, py_range.
  rewrite Hd.
  replace (Z.to_nat (Z.of_nat d + 1)) with (S d) by lia.
  rewrite z_rotations_loop_ok.
  - cbn [app seq map bind py_head tl].
    rewrite x_rotations_map, matmul_fold. reflexivity.
  - apply Forall_forall. intros k Hk. apply in_seq in Hk. lia.
Qed.

(** ** Algebra of 2x2 matrices *)

Lemma mmul_assoc (A B D : M2) : mmul (mmul A B) D = mmul A (mmul B D).
Proof. m_ring. Qed.

Lemma mmul_I2_l (A : M2) : mmul I2 A = A.
Proof. destruct A as [[] [] [] []]. m_ring. Qed.

Lemma mdagger_mmul (A B : M2) :
  mdagger (mmul A B) = mmul (mdagger B) (mdagger A).
Proof. m_ring. Qed.

Lemma is_unitary_mmul (A B : M2) :
  is_unitary A -> is_unitary B -> is_unitary (mmul A B).
Proof.
  unfold is_unitary. intros HA HB.
  rewrite mdagger_mmul, mmul_assoc, <- (mmul_assoc B), HB, mmul_I2_l.
  exact HA.
Qed.

Lemma sin_cos_1 (x : R) : cos x * cos x + sin x * sin x = 1.
Proof. generalize (sin2_cos2 x). unfold Rsqr. lra. Qed.

Lemma is_unitary_R_z (phi : R) : is_unitary (R_z phi).
Proof.
  rewrite R_z_closed. unfold is_unitary.
  generalize (sin_cos_1 phi). intros H.
  apply M2_eq; apply C_eq; cbn; try ring; ring_simplify; lra.
Qed.

Lemma is_unitary_W_x (theta : R) : is_unitary (W_x theta).
Proof.
  rewrite W_x_closed. unfold is_unitary.
  generalize (sin_cos_1 theta). intros H.
  apply M2_eq; apply C_eq; cbn; try ring; ring_simplify; lra.
Qed.

Lemma is_unitary_circuit_at (v : list R) (d : nat) (theta : R) :
  is_unitary (circuit_at v d theta).
Proof.
  unfold circuit_at.
  generalize (seq 1 d) (R_z (nth 0 v 0)) (is_unitary_R_z (nth 0 v 0)).
  intros ks. induction ks as [ | k ks IH]; intros u Hu; simpl; [ exact Hu | ].
  apply IH. apply is_unitary_mmul; [ apply is_unitary_mmul | ];
    auto using is_unitary_W_x, is_unitary_R_z.
Qed.

(** ** The circuit as a product of factors *)

Lemma circuit_at_ordered (v : list R) (d : nat) (theta : R) :
  circuit_at v d theta =
  ordered_product (map (factor_matrix v theta) (qsp_factors d)).
Proof.
  unfold circuit_at, qsp_factors. cbn [map ordered_product factor_matrix].
  generalize (seq 1 d) (R_z (nth 0 v 0)).
  intros ks. induction ks as [ | k ks IH]; intros u; simpl; [ reflexivity | ].
  apply IH.
Qed.

Lemma circuit_at_grouped (v : list R) (d : nat) (theta : R) :
  circuit_at v d theta = grouped_product v theta d.
Proof.
  unfold circuit_at, grouped_product.
  generalize (seq 1 d) (R_z (nth 0 v 0)).
  intros ks. induction ks as [ | k ks IH]; intros u; simpl; [ reflexivity | ].
  rewrite mmul_assoc. apply IH.
Qed.

Lemma count_FZ (d : nat) : length (filter is_FZ (qsp_factors d)) = S d.
Proof.
  unfold qsp_factors. cbn [filter is_FZ length]. f_equal.
  rewrite <- (length_seq d 1) at 2.
  generalize (seq 1 d). intros ks.
  induction ks as [ | k ks IH]; simpl; [ | rewrite IH ]; reflexivity.
Qed.

Lemma count_FX (d : nat) : length (filter is_FX (qsp_factors d)) = d.
Proof.
  unfold qsp_factors. cbn [filter is_FX].
  rewrite <- (length_seq d 1) at 2.
  generalize (seq 1 d). intros ks.
  induction ks as [ | k ks IH]; simpl; [ | rewrite IH ]; reflexivity.
Qed.

(** ** The forward call *)

Lemma nth_map_in {A B : Type} (f : A -> B) (l : list A) (i : nat) (a : A) (b : B) :
  (i < length l)%nat -> nth i (map f l) b = f (nth i l a).
Proof.
  intros Hi. rewrite (nth_indep _ b (f a)); [ apply map_nth | ].
  rewrite length_map. exact Hi.
Qed.

Lemma QSP_call_ok (l : QSP) (d : nat) (th : list R) :
  layer_wf l d ->
  QSP_call l th =
  Ok (QSP_readout (convention l) (map (circuit_at (phis l) d) th)).
Proof.
  intros Hwf. unfold QSP_call. rewrite (QSP_unitary_ok _ _ _ Hwf).
  reflexivity.
Qed.

(** C1: for a layer of degree [d >= 0] and any batch, the forward call
    computes for each example [i] the product
    [R_z(phi_0) * (W(theta_i) * R_z(phi_1)) * ... * (W(theta_i) * R_z(phi_d))]:
    the ordered product, left to right, of a factor sequence holding exactly
    [d+1] Z rotations and [d] X rotations; for [d = 0] it is [R_z(phi_0)]. *)
Theorem QSP_call_ordered_product (l : QSP) (d : nat) (th : list R) :
  layer_wf l d ->
  exists us,
    QSP_unitary l th = Ok us /\
    QSP_call l th = Ok (QSP_readout (convention l) us) /\
    length us = length th /\
    (forall i, (i < length th)%nat ->
       nth i us I2 =
         ordered_product
           (map (factor_matrix (phis l) (nth i th 0)) (qsp_factors d)) /\
       nth i us I2 = grouped_product (phis l) (nth i th 0) d) /\
    length (filter is_FZ (qsp_factors d)) = S d /\
    length (filter is_FX (qsp_factors d)) = d /\
    (d = O -> forall i, (i < length th)%nat ->
       nth i us I2 = R_z (nth 0 (phis l) 0)).
Proof.
  intros Hwf. exists (map (circuit_at (phis l) d) th).
  split; [ apply QSP_unitary_ok; exact Hwf | ].
  split; [ apply QSP_call_ok; exact Hwf | ].
  split; [ apply length_map | ].
  split.
  { intros i Hi. rewrite (nth_map_in _ _ _ 0 _ Hi).
    split; [ apply circuit_at_ordered | apply circuit_at_grouped ]. }
  split; [ apply count_FZ | ].
  split; [ apply count_FX | ].
  intros -> i Hi. rewrite (nth_map_in _ _ _ 0 _ Hi). reflexivity.
Qed.

Lemma QSP_call_ordered_product_witness :
  layer_wf (mkQSP 1 0 [0; 1]) 1 /\
  exists us,
    QSP_unitary (mkQSP 1 0 [0; 1]) [0; 1; 2] = Ok us /\
    QSP_call (mkQSP 1 0 [0; 1]) [0; 1; 2] = Ok (QSP_readout 0 us) /\
    length us = 3%nat /\
    (forall i, (i < 3)%nat ->
       nth i us I2 =
         ordered_product
           (map (factor_matrix [0; 1] (nth i [0; 1; 2] 0)) (qsp_factors 1)) /\
       nth i us I2 = grouped_product [0; 1] (nth i [0; 1; 2] 0) 1) /\
    length (filter is_FZ (qsp_factors 1)) = 2%nat /\
    length (filter is_FX (qsp_factors 1)) = 1%nat /\
    (1%nat = O -> forall i, (i < 3)%nat -> nth i us I2 = R_z 0).
Proof.
  split; [ split; reflexivity | ].
  apply (QSP_call_ordered_product (mkQSP 1 0 [0; 1]) 1 [0; 1; 2]).
  split; reflexivity.
Defined.

(** C2: with convention 0 the forward call returns the streams
    [(Re U_i[0,0], Im U_i[0,0])], with convention 1 the streams
    [(Re U_i[0,0], Im U_i[0,1])], where [U_i] is the circuit unitary of
    example [i]; both streams follow the order of the input batch. *)
Theorem QSP_call_readout (d : nat) (v : list R) (th : list R) :
  length v = S d ->
  QSP_call (mkQSP (Z.of_nat d) 0 v) th =
    Ok (Some (map (fun t => Re (m00 (grouped_product v t d))) th,
              map (fun t => Im (m00 (grouped_product v t d))) th)) /\
  QSP_call (mkQSP (Z.of_nat d) 1 v) th =
    Ok (Some (map (fun t => Re (m00 (grouped_product v t d))) th,
              map (fun t => Im (m01 (grouped_product v t d))) th)).
Proof.
  intros Hlen.
  split.
  - rewrite (QSP_call_ok _ d); [ | split; [ reflexivity | exact Hlen ] ].
    cbn [convention phis QSP_readout Z.eqb Pos.eqb].
    rewrite !map_map. do 3 f_equal;
      apply map_ext; intros t; rewrite circuit_at_grouped; reflexivity.
  - rewrite (QSP_call_ok _ d); [ | split; [ reflexivity | exact Hlen ] ].
    cbn [convention phis QSP_readout Z.eqb Pos.eqb].
    rewrite !map_map. do 3 f_equal;
      apply map_ext; intros t; rewrite circuit_at_grouped; reflexivity.
Qed.

Lemma QSP_call_readout_witness :
  length [0; 1; 2] = 3%nat /\
  QSP_call (mkQSP 2 0 [0; 1; 2]) [0; 1] =
    Ok (Some (map (fun t => Re (m00 (grouped_product [0; 1; 2] t 2))) [0; 1],
              map (fun t => Im (m00 (grouped_product [0; 1; 2] t 2))) [0; 1])) /\
  QSP_call (mkQSP 2 1 [0; 1; 2]) [0; 1] =
    Ok (Some (map (fun t => Re (m00 (grouped_product [0; 1; 2] t 2))) [0; 1],
              map (fun t => Im (m01 (grouped_product [0; 1; 2] t 2))) [0; 1])).
Proof.
  split; [ reflexivity | ].
  apply (QSP_call_readout 2 [0; 1; 2] [0; 1]). reflexivity.
Defined.

(** C3: for every batch of input angles, every phase vector of a layer of
    degree [d >= 0] and either convention, each circuit unitary [U] the
    forward call computes satisfies [U * U^dagger = I]. *)
Theorem QSP_unitary_is_unitary (l : QSP) (d : nat) (th : list R) :
  layer_wf l d ->
  exists us,
    QSP_unitary l th = Ok us /\
    length us = length th /\
    Forall (fun U => mmul U (mdagger U) = I2) us.
Proof.
  intros Hwf. exists (map (circuit_at (phis l) d) th).
  split; [ apply QSP_unitary_ok; exact Hwf | ].
  split; [ apply length_map | ].
  apply Forall_forall. intros U HU.
  apply in_map_iff in HU. destruct HU as [t [<- _]].
  apply is_unitary_circuit_at.
Qed.

Lemma QSP_unitary_is_unitary_witness :
  layer_wf (mkQSP 2 1 [1; 2; 3]) 2 /\
  exists us,
    QSP_unitary (mkQSP 2 1 [1; 2; 3]) [0; 1] = Ok us /\
    length us = 2%nat /\
    Forall (fun U => mmul U (mdagger U) = I2) us.
Proof.
  split; [ split; reflexivity | ].
  apply (QSP_unitary_is_unitary (mkQSP 2 1 [1; 2; 3]) 2 [0; 1]).
  split; reflexivity.
Defined.

(** Neither branch of lines 78-83 is taken for another convention: the
    call ends without a [return]. *)
Lemma QSP_call_unsupported (l : QSP) (d : nat) (th : list R) :
  layer_wf l d -> convention l <> 0%Z -> convention l <> 1%Z ->
  QSP_call l th = Ok None.
Proof.
  intros Hwf H0 H1. rewrite (QSP_call_ok _ _ _ Hwf). unfold QSP_readout.
  apply Z.eqb_neq in H0, H1. rewrite H0, H1. reflexivity.
Qed.

(** C4 (the code at an unsupported convention): with [convention = 2] the
    forward call raises nothing and returns [None]. *)
Theorem QSP_call_convention_2 :
  QSP_call (mkQSP 0 2 [0]) [0] = Ok None.
Proof.
  rewrite (QSP_call_ok _ O); [ reflexivity | split; reflexivity ].
Qed.

(** C5: for [poly_deg = 0] and [convention = 0] the real readout is
    [cos(phi_0)] and the imaginary readout [sin(phi_0)] for every example,
    whatever the input angle. *)
Theorem QSP_call_degree_zero (phi0 : R) (th : list R) :
  QSP_call (mkQSP 0 0 [phi0]) th =
  Ok (Some (map (fun _ => cos phi0) th, map (fun _ => sin phi0) th)).
Proof.
  rewrite (QSP_call_ok _ O); [ | split; reflexivity ].
  cbn [convention phis QSP_readout Z.eqb Pos.eqb].
  rewrite !map_map. unfold circuit_at. cbn [seq fold_left nth].
  rewrite R_z_closed. reflexivity.
Qed.

(** ** Loss functions *)

Lemma tf_subtract_same_length (t p : list C) :
  length t = length p -> tf_subtract t p = Ok (zip_with Csub t p).
Proof.
  intros H. unfold tf_subtract. rewrite H, Nat.eqb_refl. reflexivity.
Qed.

(** The deviations the four losses reduce, by index. *)
Lemma deviations_by_index (t p : list C) :
  length t = length p ->
  tf_abs (zip_with Csub t p) = map (deviation_at t p) (seq 0 (length t)).
Proof.
  revert p. induction t as [ | x t IH]; intros [ | y p] H;
    try discriminate; [ reflexivity | ].
  injection H as H. cbn [length seq map].
  rewrite <- seq_shift, map_map.
  unfold tf_abs, zip_with in *. cbn [combine map fst snd].
  f_equal. rewrite (IH p H). reflexivity.
Qed.

Lemma reduce_sum_by_index (f : nat -> R) (n : nat) :
  reduce_sum (map f (seq 0 n)) = sum_below f n.
Proof.
  unfold reduce_sum. induction n as [ | n IH]; [ reflexivity | ].
  rewrite seq_S, map_app, fold_left_app, IH. reflexivity.
Qed.

Lemma reduce_mean_by_index (f : nat -> R) (n : nat) :
  n <> O -> reduce_mean (map f (seq 0 n)) = Fin (mean_over f n).
Proof.
  intros Hn. unfold reduce_mean, mean_over.
  destruct (map f (seq 0 n)) as [ | x l] eqn:E.
  - destruct n; [ contradiction | discriminate ].
  - rewrite <- E, reduce_sum_by_index, length_map, length_seq. reflexivity.
Qed.

Lemma fold_Rmax_spec (l : list R) :
  forall x, In (fold_left Rmax l x) (x :: l) /\
            forall y, In y (x :: l) -> y <= fold_left Rmax l x.
Proof.
  induction l as [ | a l IH]; intros x; cbn [fold_left].
  - split; [ left; reflexivity | ].
    intros y [<- | []]. apply Rle_refl.
  - destruct (IH (Rmax x a)) as [Hin Hub]. split.
    + destruct Hin as [Hm | Hm]; [ | right; right; exact Hm ].
      rewrite <- Hm.
      apply Rmax_case; [ left | right; left ]; reflexivity.
    + assert (Hx : Rmax x a <= fold_left Rmax l (Rmax x a))
        by (apply Hub; left; reflexivity).
      intros y [<- | [<- | Hy]].
      * apply Rle_trans with (Rmax x a); [ apply Rmax_l | exact Hx ].
      * apply Rle_trans with (Rmax x a); [ apply Rmax_r | exact Hx ].
      * apply Hub. right. exact Hy.
Qed.

Lemma reduce_max_by_index (f : nat -> R) (n : nat) :
  n <> O ->
  exists m, reduce_max (map f (seq 0 n)) = Fin m /\ is_max_over f n m.
Proof.
  intros Hn. unfold reduce_max.
  destruct (map f (seq 0 n)) as [ | x l] eqn:E.
  - destruct n; [ contradiction | discriminate ].
  - exists (fold_left Rmax l x). split; [ reflexivity | ].
    destruct (fold_Rmax_spec l x) as [Hin Hub]. rewrite <- E in Hin, Hub.
    split.
    + apply in_map_iff in Hin. destruct Hin as [i [Hi Hr]].
      apply in_seq in Hr. exists i. split; [ lia | exact Hi ].
    + intros i Hi. apply Hub. apply in_map. apply in_seq. lia.
Qed.

(** C6: on two batches of equal length each loss returns one scalar; when
    the batches are not empty, [mean_deviation] is the mean over [i] of
    [|target_i - pred_i|], [max_deviation] the maximum over [i],
    [mean_deviation_squared] the mean of [|target_i - pred_i|^2] and
    [max_deviation_squared] its maximum, with [|.|] the complex modulus. *)
Theorem deviation_losses (t p : list C) :
  length t = length p ->
  (exists s, mean_deviation t p = Ok s /\
     (length t <> O -> s = Fin (mean_over (deviation_at t p) (length t)))) /\
  (exists s, max_deviation t p = Ok s /\
     (length t <> O ->
      exists m, s = Fin m /\ is_max_over (deviation_at t p) (length t) m)) /\
  (exists s, mean_deviation_squared t p = Ok s /\
     (length t <> O ->
      s = Fin (mean_over (fun i => Rsqr (deviation_at t p i)) (length t)))) /\
  (exists s, max_deviation_squared t p = Ok s /\
     (length t <> O ->
      exists m, s = Fin m /\
        is_max_over (fun i => Rsqr (deviation_at t p i)) (length t) m)).
Proof.
  intros H.
  unfold mean_deviation, max_deviation, mean_deviation_squared,
    max_deviation_squared, tf_square.
  rewrite (tf_subtract_same_length _ _ H). cbn [bind].
  rewrite (deviations_by_index _ _ H), map_map.
  repeat split; eexists; (split; [ reflexivity | intros Hn ]).
  - apply reduce_mean_by_index. exact Hn.
  - apply reduce_max_by_index. exact Hn.
  - apply (reduce_mean_by_index (fun i => Rsqr (deviation_at t p i))).
    exact Hn.
  - apply (reduce_max_by_index (fun i => Rsqr (deviation_at t p i))).
    exact Hn.
Qed.

Lemma deviation_losses_witness :
  length [Cone; Cimag] = length [Czero; Czero] /\
  (exists s, mean_deviation [Cone; Cimag] [Czero; Czero] = Ok s /\
     (2%nat <> O ->
      s = Fin (mean_over (deviation_at [Cone; Cimag] [Czero; Czero]) 2))) /\
  (exists s, max_deviation [Cone; Cimag] [Czero; Czero] = Ok s /\
     (2%nat <> O ->
      exists m, s = Fin m /\
        is_max_over (deviation_at [Cone; Cimag] [Czero; Czero]) 2 m)) /\
  (exists s, mean_deviation_squared [Cone; Cimag] [Czero; Czero] = Ok s /\
     (2%nat <> O ->
      s = Fin (mean_over
                 (fun i => Rsqr (deviation_at [Cone; Cimag] [Czero; Czero] i))
                 2))) /\
  (exists s, max_deviation_squared [Cone; Cimag] [Czero; Czero] = Ok s /\
     (2%nat <> O ->
      exists m, s = Fin m /\
        is_max_over
          (fun i => Rsqr (deviation_at [Cone; Cimag] [Czero; Czero] i)) 2 m)).
Proof.
  split; [ reflexivity | ].
  apply (deviation_losses [Cone; Cimag] [Czero; Czero]). reflexivity.
Defined.

(** The empty batch: the reductions return their empty-input values. *)
Lemma losses_empty_batch :
  mean_deviation [] [] = Ok NaN /\ max_deviation [] [] = Ok NegInf /\
  mean_deviation_squared [] [] = Ok NaN /\
  max_deviation_squared [] [] = Ok NegInf.
Proof. repeat split. Qed.

Lemma Cabs_Cone : Cabs (Csub Cone Czero) = 1.
Proof.
  unfold Cabs. cbn [Csub Re Im Cone Czero].
  replace ((1 - 0) * (1 - 0) + (0 - 0) * (0 - 0)) with 1 by ring.
  apply sqrt_1.
Qed.

Lemma Cabs_Cimag : Cabs (Csub Cimag Czero) = 1.
Proof.
  unfold Cabs. cbn [Csub Re Im Cimag Czero].
  replace ((0 - 0) * (0 - 0) + (1 - 0) * (1 - 0)) with 1 by ring.
  apply sqrt_1.
Qed.

(** The literal batch of section 8: [a = [1; i]], [b = [0; 0]]. *)
Example losses_literal_batch :
  mean_deviation [Cone; Cimag] [Czero; Czero] = Ok (Fin 1) /\
  max_deviation [Cone; Cimag] [Czero; Czero] = Ok (Fin 1) /\
  mean_deviation_squared [Cone; Cimag] [Czero; Czero] = Ok (Fin 1) /\
  max_deviation_squared [Cone; Cimag] [Czero; Czero] = Ok (Fin 1).
Proof.
  unfold mean_deviation, max_deviation, mean_deviation_squared,
    max_deviation_squared.
  cbn [tf_subtract length Nat.eqb bind zip_with combine map fst snd
       tf_abs tf_square].
  rewrite Cabs_Cone, Cabs_Cimag.
  cbn [reduce_mean reduce_max reduce_sum fold_left length].
  repeat split; do 2 f_equal.
  - simpl. field.
  - apply Rmax_left. lra.
  - simpl. field.
  - rewrite Rmult_1_l. apply Rmax_left. lra.
Qed.

Lemma deviation_self (a : list C) (i : nat) : deviation_at a a i = 0.
Proof.
  unfold deviation_at, Cabs, Csub. cbn [Re Im].
  rewrite !Rminus_diag, Rmult_0_l, Rplus_0_l. apply sqrt_0.
Qed.

Lemma sum_below_zero (n : nat) : sum_below (fun _ => 0) n = 0.
Proof. induction n as [ | n IH]; simpl; [ | rewrite IH ]; lra. Qed.

(** C7: a non-empty batch deviates from itself by zero, in the mean and in
    the maximum. *)
Theorem self_deviation_zero (a : list C) :
  a <> [] ->
  mean_deviation a a = Ok (Fin 0) /\ max_deviation a a = Ok (Fin 0).
Proof.
  intros Ha.
  assert (Hn : length a <> O) by (destruct a; [ contradiction | discriminate ]).
  unfold mean_deviation, max_deviation.
  rewrite (tf_subtract_same_length a a eq_refl). cbn [bind].
  rewrite (deviations_by_index a a eq_refl).
  rewrite (map_ext _ (fun _ => 0) (deviation_self a)).
  split; f_equal.
  - rewrite (reduce_mean_by_index _ _ Hn). unfold mean_over.
    rewrite sum_below_zero. f_equal. unfold Rdiv. apply Rmult_0_l.
  - destruct (reduce_max_by_index (fun _ => 0) _ Hn) as [m [E [[i [_ Hm]] _]]].
    rewrite E, Hm. reflexivity.
Qed.

Lemma self_deviation_zero_witness :
  [Cone; Cimag] <> [] /\
  mean_deviation [Cone; Cimag] [Cone; Cimag] = Ok (Fin 0) /\
  max_deviation [Cone; Cimag] [Cone; Cimag] = Ok (Fin 0).
Proof.
  split; [ discriminate | ].
  apply (self_deviation_zero [Cone; Cimag]). discriminate.
Defined.

(** ** Construction *)

Lemma QSP_init_ok (draw : nat -> R) (d : nat) (conv : Z) :
  QSP_init draw (Z.of_nat d) conv =
  Ok (mkQSP (Z.of_nat d) conv (map draw (seq 0 (S d)))).
Proof.
  unfold QSP_init, phi_init.
  destruct (Z.ltb_spec (Z.of_nat d + 1) 0) as [H | H]; [ lia | ].
  replace (Z.to_nat (Z.of_nat d + 1)) with (S d) by lia. reflexivity.
Qed.

Lemma QSP_init_wf (draw : nat -> R) (d : nat) (conv : Z) :
  layer_wf (mkQSP (Z.of_nat d) conv (map draw (seq 0 (S d)))) d.
Proof.
  split; [ reflexivity | ].
  cbn [phis]. rewrite length_map, length_seq. reflexivity.
Qed.

Lemma QSP_call_empty_phis (pd conv : Z) (th : list R) :
  (pd < 0)%Z -> QSP_call (mkQSP pd conv []) th = Raise IndexError.
Proof.
  intros H. unfold QSP_call, QSP_unitary, py_range. cbn [poly_deg phis].
  replace (Z.to_nat (pd + 1)) with O by lia. reflexivity.
Qed.

(** C8 fails at [poly_deg = -1]: the shape [(0, 1)] is accepted and the
    constructor returns a layer with no phase at all. *)
Lemma QSP_init_minus_one :
  (-1 < 0)%Z /\ QSP_init (fun _ => 0) (-1) 0 = Ok (mkQSP (-1) 0 []).
Proof. split; reflexivity. Qed.

(** C8, amended: the constructor does not validate [poly_deg].  For
    [poly_deg <= -2] construction fails, inside the initializer, on the
    negative dimension of the shape; for [poly_deg = -1] construction
    succeeds with an empty phase vector and every forward call then raises
    [IndexError]. *)
Theorem QSP_init_negative (draw : nat -> R) (pd conv : Z) :
  (pd < 0)%Z ->
  ((pd < -1)%Z -> QSP_init draw pd conv = Raise InvalidArgumentError) /\
  (pd = (-1)%Z ->
     QSP_init draw pd conv = Ok (mkQSP (-1) conv []) /\
     forall th, QSP_call (mkQSP (-1) conv []) th = Raise IndexError).
Proof.
  intros Hneg. split.
  - intros H. unfold QSP_init, phi_init.
    destruct (Z.ltb_spec (pd + 1) 0) as [_ | H']; [ reflexivity | lia ].
  - intros ->. split; [ reflexivity | ].
    intros th. apply QSP_call_empty_phis. lia.
Qed.

Lemma QSP_init_negative_witness :
  (-2 < 0)%Z /\ (-1 < 0)%Z /\
  QSP_init (fun _ => 0) (-2) 0 = Raise InvalidArgumentError /\
  QSP_init (fun _ => 0) (-1) 0 = Ok (mkQSP (-1) 0 []) /\
  QSP_call (mkQSP (-1) 0 []) [0] = Raise IndexError.
Proof.
  split; [ lia | ]. split; [ lia | ].
  split.
  - apply (QSP_init_negative (fun _ => 0) (-2) 0); lia.
  - assert (H : (-1 < 0)%Z) by lia.
    destruct (QSP_init_negative (fun _ => 0) (-1) 0 H) as [_ H1].
    destruct (H1 eq_refl) as [H2 H3].
    split; [ exact H2 | exact (H3 [0]) ].
Defined.

(** ** The model builder *)

Lemma combine_complex (a b : R) :
  Cadd (cast_complex a) (Cmul Cimag (cast_complex b)) = mkC a b.
Proof. c_ring. Qed.

Lemma QSP_readout_supported (conv : Z) (us : list M2) :
  (conv = 0 \/ conv = 1)%Z ->
  exists pick : M2 -> R,
    QSP_readout conv us =
    Some (map (fun U => Re (m00 U)) us, map pick us).
Proof.
  intros [-> | ->]; eexists; reflexivity.
Qed.

Lemma forward_graph_ok (l : QSP) (d : nat) (th : list R) :
  layer_wf l d -> (convention l = 0 \/ convention l = 1)%Z ->
  exists re im,
    QSP_call l th = Ok (Some (re, im)) /\
    length re = length th /\ length im = length th /\
    exists out,
      forward_graph l th = Ok out /\ length out = length th /\
      forall i, (i < length th)%nat ->
        nth i out Czero =
          Cadd (cast_complex (nth i re 0))
               (Cmul Cimag (cast_complex (nth i im 0))) /\
        nth i out Czero = mkC (nth i re 0) (nth i im 0).
Proof.
  intros Hwf Hc. unfold forward_graph.
  rewrite (QSP_call_ok _ _ _ Hwf).
  destruct (QSP_readout_supported _ (map (circuit_at (phis l) d) th) Hc)
    as [pick ->].
  rewrite !map_map.
  eexists; eexists. split; [ reflexivity | ].
  split; [ apply length_map | ]. split; [ apply length_map | ].
  cbn [bind combine_streams]. rewrite zip_with_map_map.
  eexists. split; [ reflexivity | ]. split; [ apply length_map | ].
  intros i Hi.
  rewrite (nth_map_in _ _ _ 0 _ Hi), (nth_map_in _ _ _ 0 _ Hi),
    (nth_map_in _ _ _ 0 _ Hi).
  split; [ reflexivity | apply combine_complex ].
Qed.

(** *** The symbolic input

    Whether tracing the layer succeeds, and the error it raises when it
    does not, are decided by the layer alone: the batch the trace runs on
    plays no part, so the placeholder of [construct_qsp_model] may be any
    batch. *)

Lemma z_rotations_loop_out_of_range (v : list R) (n : nat) (ks : list nat) :
  ~ Forall (fun k => (k < length v)%nat) ks ->
  forall acc, z_rotations_loop v n ks acc = Raise InvalidArgumentError.
Proof.
  induction ks as [ | k ks IH]; intros Hks acc.
  - exfalso. apply Hks. constructor.
  - cbn [z_rotations_loop]. unfold z_rotation, phis_at.
    destruct (nth_error v k) as [phi | ] eqn:E; [ | reflexivity ].
    cbn [bind]. apply IH. intros Hf. apply Hks. constructor; [ | exact Hf ].
    apply nth_error_Some. rewrite E. discriminate.
Qed.

Lemma trace_graph_ok (l : QSP) (d : nat) (th : list R) :
  layer_wf l d -> trace_graph l th = forward_graph l th.
Proof.
  intros Hwf. unfold trace_graph, traced_call, forward_graph.
  rewrite (QSP_call_ok _ _ _ Hwf). reflexivity.
Qed.

Lemma trace_graph_same_outcome (l : QSP) (th th' : list R) :
  same_outcome (trace_graph l th) (trace_graph l th').
Proof.
  unfold trace_graph, traced_call, QSP_call, QSP_unitary.
  destruct (Forall_dec (fun k => (k < length (phis l))%nat)
              (fun k => lt_dec k (length (phis l)))
              (py_range (poly_deg l + 1))) as [Hin | Hout].
  - rewrite !z_rotations_loop_ok by exact Hin. cbn [app bind].
    destruct (py_range (poly_deg l + 1)) as [ | k ks];
      cbn [map py_head bind]; [ reflexivity | ].
    unfold QSP_readout.
    destruct (convention l =? 0)%Z; [ exact I | ].
    destruct (convention l =? 1)%Z; [ exact I | reflexivity ].
  - rewrite !z_rotations_loop_out_of_range by exact Hout. reflexivity.
Qed.

Lemma construct_qsp_model_placeholder (draw : nat -> R) (th th' : list R)
  (pd conv : Z) (lr : R) (mean_or_max squared : Z) :
  construct_qsp_model draw th pd conv lr mean_or_max squared =
  construct_qsp_model draw th' pd conv lr mean_or_max squared.
Proof.
  unfold construct_qsp_model.
  destruct (QSP_init draw pd conv) as [qsp | e]; cbn [bind]; [ | reflexivity ].
  generalize (trace_graph_same_outcome qsp th th').
  destruct (trace_graph qsp th) as [o | e],
           (trace_graph qsp th') as [o' | e']; cbn [same_outcome bind];
    intros H; try contradiction; [ reflexivity | rewrite H; reflexivity ].
Qed.


Lemma construct_qsp_model_low (draw : nat -> R) (theta_input : list R)
  (pd conv : Z) (lr : R) (mean_or_max squared : Z) :
  (pd < -1)%Z ->
  construct_qsp_model draw theta_input pd conv lr mean_or_max squared =
  Raise InvalidArgumentError.
Proof.
  intros H. unfold construct_qsp_model, QSP_init, phi_init.
  destruct (Z.ltb_spec (pd + 1) 0) as [_ | H']; [ reflexivity | lia ].
Qed.

Lemma construct_qsp_model_minus_one (draw : nat -> R) (theta_input : list R)
  (conv : Z) (lr : R) (mean_or_max squared : Z) :
  construct_qsp_model draw theta_input (-1) conv lr mean_or_max squared =
  Raise StagingError.
Proof.
  unfold construct_qsp_model.
  cbn [QSP_init phi_init Z.add Z.ltb Z.compare Z.to_nat
       Pos.compare Pos.compare_cont Z.pos_sub seq map bind].
  unfold trace_graph, traced_call.
  rewrite QSP_call_empty_phis by lia. reflexivity.
Qed.

Lemma construct_qsp_model_bad_convention (draw : nat -> R)
  (theta_input : list R) (pd conv : Z) (lr : R) (mean_or_max squared : Z) :
  (0 <= pd)%Z -> conv <> 0%Z -> conv <> 1%Z ->
  construct_qsp_model draw theta_input pd conv lr mean_or_max squared =
  Raise ValueError.
Proof.
  intros Hpd H0 H1. unfold construct_qsp_model.
  rewrite <- (Z2Nat.id pd Hpd), QSP_init_ok. cbn [bind].
  rewrite (trace_graph_ok _ _ _ (QSP_init_wf draw (Z.to_nat pd) conv)).
  unfold forward_graph.
  rewrite (QSP_call_unsupported _ _ _
             (QSP_init_wf draw (Z.to_nat pd) conv) H0 H1).
  reflexivity.
Qed.







(** * Further properties of the layer, the losses and the builder *)

(** ** Construction followed by a call *)

(** X1: for [poly_deg >= 0] the constructor returns a layer that records both
    arguments and owns exactly [poly_deg + 1] phases, the [k]-th being the
    [k]-th draw of the initializer ([phi_0] first). *)
Theorem QSP_init_shape (draw : nat -> R) (pd conv : Z) :
  (0 <= pd)%Z ->
  exists l,
    QSP_init draw pd conv = Ok l /\
    poly_deg l = pd /\ convention l = conv /\
    Z.of_nat (length (phis l)) = (pd + 1)%Z /\
    forall k, (k < length (phis l))%nat -> nth k (phis l) 0 = draw k.
Proof.
  intros Hpd. rewrite <- (Z2Nat.id pd Hpd), QSP_init_ok.
  eexists. split; [ reflexivity | ]. cbn [poly_deg convention phis].
  rewrite length_map, length_seq.
  split; [ reflexivity | ]. split; [ reflexivity | ]. split; [ lia | ].
  intros k Hk.
  rewrite (nth_indep _ 0 (draw O)) by (rewrite length_map, length_seq; exact Hk).
  rewrite map_nth, seq_nth by exact Hk. reflexivity.
Qed.

Lemma QSP_init_shape_witness :
  (0 <= 2)%Z /\
  exists l,
    QSP_init INR 2 1 = Ok l /\
    poly_deg l = 2%Z /\ convention l = 1%Z /\
    Z.of_nat (length (phis l)) = 3%Z /\
    forall k, (k < length (phis l))%nat -> nth k (phis l) 0 = INR k.
Proof.
  assert (H : (0 <= 2)%Z) by discriminate.
  split; [ exact H | ].
  exact (QSP_init_shape INR 2 1 H).
Defined.

(** X2: a layer built with [poly_deg >= 0] never raises in its forward call,
    whatever the batch (the empty one included) and whatever the
    convention: the call returns [None] exactly when the convention is
    neither 0 nor 1, and otherwise two streams as long as the batch. *)
Theorem QSP_init_then_call (draw : nat -> R) (pd conv : Z) (th : list R) :
  (0 <= pd)%Z ->
  exists l r,
    QSP_init draw pd conv = Ok l /\
    QSP_call l th = Ok r /\
    (r = None <-> (conv <> 0 /\ conv <> 1)%Z) /\
    forall re im, r = Some (re, im) ->
      length re = length th /\ length im = length th.
Proof.
  intros Hpd. rewrite <- (Z2Nat.id pd Hpd), QSP_init_ok.
  eexists. eexists. split; [ reflexivity | ].
  rewrite (QSP_call_ok _ _ _ (QSP_init_wf draw (Z.to_nat pd) conv)).
  split; [ reflexivity | ]. cbn [convention phis]. unfold QSP_readout.
  destruct (Z.eqb_spec conv 0) as [E0 | E0];
    [ | destruct (Z.eqb_spec conv 1) as [E1 | E1] ].
  - split; [ split; [ discriminate | intros [H _]; contradiction ] | ].
    intros re im [= <- <-]. rewrite !length_map. split; reflexivity.
  - split; [ split; [ discriminate | intros [_ H]; contradiction ] | ].
    intros re im [= <- <-]. rewrite !length_map. split; reflexivity.
  - split; [ split; [ intros _; split; assumption | reflexivity ] | ].
    intros re im H. discriminate H.
Qed.

Lemma QSP_init_then_call_witness :
  (0 <= 1)%Z /\
  exists l r,
    QSP_init INR 1 0 = Ok l /\
    QSP_call l [] = Ok r /\
    (r = None <-> (0 <> 0 /\ 0 <> 1)%Z) /\
    forall re im, r = Some (re, im) ->
      length re = 0%nat /\ length im = 0%nat.
Proof.
  assert (H : (0 <= 1)%Z) by discriminate.
  split; [ exact H | ].
  exact (QSP_init_then_call INR 1 0 [] H).
Defined.

(** X3: the forward call works example by example: the streams of a
    concatenated batch are the concatenated streams of its parts. *)
Theorem QSP_call_app (l : QSP) (d : nat) (th1 th2 : list R)
  (re1 im1 re2 im2 : list R) :
  layer_wf l d ->
  QSP_call l th1 = Ok (Some (re1, im1)) ->
  QSP_call l th2 = Ok (Some (re2, im2)) ->
  QSP_call l (th1 ++ th2) = Ok (Some (re1 ++ re2, im1 ++ im2)).
Proof.
  intros Hwf. rewrite !(QSP_call_ok _ _ _ Hwf). unfold QSP_readout.
  destruct (convention l =? 0)%Z; [ | destruct (convention l =? 1)%Z ];
    try discriminate;
    intros [= <- <-] [= <- <-]; rewrite !map_app; reflexivity.
Qed.

Lemma QSP_call_app_witness :
  layer_wf (mkQSP 0 0 [1]) 0 /\
  QSP_call (mkQSP 0 0 [1]) [0; 2] =
    Ok (Some ([Re (m00 (circuit_at [1] 0 0))] ++ [Re (m00 (circuit_at [1] 0 2))],
              [Im (m00 (circuit_at [1] 0 0))] ++ [Im (m00 (circuit_at [1] 0 2))])).
Proof.
  assert (Hwf : layer_wf (mkQSP 0 0 [1]) 0) by (split; reflexivity).
  split; [ exact Hwf | ].
  exact (QSP_call_app (mkQSP 0 0 [1]) 0 [0] [2] _ _ _ _ Hwf
           (QSP_call_ok _ 0 [0] Hwf) (QSP_call_ok _ 0 [2] Hwf)).
Defined.

(** ** Special inputs and special phases *)

Lemma rot_z_mul (a b : R) : mmul (rot_z a) (rot_z b) = rot_z (a + b).
Proof.
  unfold rot_z. rewrite cos_plus, sin_plus. m_ring.
Qed.

Lemma rot_x_mul (a b : R) : mmul (rot_x a) (rot_x b) = rot_x (a + b).
Proof.
  unfold rot_x. rewrite cos_plus, sin_plus. m_ring.
Qed.

Lemma rot_z_0 : rot_z 0 = I2.
Proof. unfold rot_z. rewrite cos_0, sin_0. m_ring. Qed.

Lemma rot_x_0 : rot_x 0 = I2.
Proof. unfold rot_x. rewrite cos_0, sin_0. reflexivity. Qed.

Lemma mmul_I2_r (A : M2) : mmul A I2 = A.
Proof. destruct A as [[] [] [] []]. m_ring. Qed.

Lemma nth_seq_all (v : list R) :
  map (fun k => nth k v 0) (seq 0 (length v)) = v.
Proof.
  induction v as [ | x v IH]; [ reflexivity | ].
  cbn [length seq map nth]. rewrite <- seq_shift, map_map.
  cbn [nth]. rewrite IH. reflexivity.
Qed.

Lemma fold_left_through_map {A B D : Type} (F : A -> D -> A) (g : B -> D)
  (l : list B) :
  forall a, fold_left (fun u k => F u (g k)) l a = fold_left F (map g l) a.
Proof. induction l as [ | b l IH]; intros a; simpl; [ | rewrite IH ]; reflexivity. Qed.

(** The loop of lines 73-76 as a fold over the phases after the first. *)
Lemma circuit_at_phases (x : R) (rest : list R) (theta : R) :
  circuit_at (x :: rest) (length rest) theta =
  fold_left (fun u phi => mmul (mmul u (W_x theta)) (R_z phi)) rest (R_z x).
Proof.
  unfold circuit_at.
  rewrite (fold_left_through_map
             (fun u phi => mmul (mmul u (W_x theta)) (R_z phi))
             (fun k => nth k (x :: rest) 0)).
  rewrite <- seq_shift, map_map. cbn [nth].
  rewrite nth_seq_all. reflexivity.
Qed.

Lemma split_phases (v : list R) (d : nat) :
  length v = S d -> exists x rest, v = x :: rest /\ length rest = d.
Proof.
  destruct v as [ | x rest]; [ discriminate | ].
  intros [= H]. exists x, rest. split; [ reflexivity | exact H ].
Qed.

Lemma circuit_at_zero_angle (v : list R) (d : nat) :
  length v = S d -> circuit_at v d 0 = rot_z (phase_sum v).
Proof.
  intros Hlen. destruct (split_phases v d Hlen) as [x [rest [-> <-]]].
  rewrite circuit_at_phases. unfold phase_sum. cbn [fold_left].
  rewrite Rplus_0_l, R_z_closed, W_x_closed, rot_x_0. generalize x. clear.
  induction rest as [ | phi rest IH]; intros a; cbn [fold_left];
    [ reflexivity | ].
  rewrite mmul_I2_r, R_z_closed, rot_z_mul. apply IH.
Qed.

(** X5: at the input angle 0 the signal rotation is the identity and the
    circuit collapses to one Z rotation by the sum of the phases: under
    convention 0 the readout is [(cos S, sin S)], under convention 1 it is
    [(cos S, 0)], with [S = phi_0 + ... + phi_d]. *)
Theorem QSP_call_zero_angle (d : nat) (v : list R) (th : list R) :
  length v = S d ->
  Forall (fun t => t = 0) th ->
  QSP_call (mkQSP (Z.of_nat d) 0 v) th =
    Ok (Some (map (fun _ => cos (phase_sum v)) th,
              map (fun _ => sin (phase_sum v)) th)) /\
  QSP_call (mkQSP (Z.of_nat d) 1 v) th =
    Ok (Some (map (fun _ => cos (phase_sum v)) th,
              map (fun _ => 0) th)).
Proof.
  intros Hlen Hth.
  assert (E : map (circuit_at v d) th = map (fun _ => rot_z (phase_sum v)) th).
  { apply map_ext_in. intros t Ht.
    rewrite Forall_forall in Hth. rewrite (Hth t Ht).
    apply circuit_at_zero_angle. exact Hlen. }
  split; (rewrite (QSP_call_ok _ d); [ | split; [ reflexivity | exact Hlen ] ]);
    cbn [convention phis QSP_readout Z.eqb Pos.eqb];
    rewrite E, !map_map; reflexivity.
Qed.

Lemma QSP_call_zero_angle_witness :
  length [1; 2; 3] = 3%nat /\ Forall (fun t => t = 0) [0; 0] /\
  QSP_call (mkQSP 2 0 [1; 2; 3]) [0; 0] =
    Ok (Some (map (fun _ => cos (phase_sum [1; 2; 3])) [0; 0],
              map (fun _ => sin (phase_sum [1; 2; 3])) [0; 0])) /\
  QSP_call (mkQSP 2 1 [1; 2; 3]) [0; 0] =
    Ok (Some (map (fun _ => cos (phase_sum [1; 2; 3])) [0; 0],
              map (fun _ => 0) [0; 0])).
Proof.
  assert (H : Forall (fun t => t = 0) [0; 0])
    by (repeat constructor).
  split; [ reflexivity | ]. split; [ exact H | ].
  exact (QSP_call_zero_angle 2 [1; 2; 3] [0; 0] eq_refl H).
Defined.

Lemma circuit_at_zero_phases (d : nat) (theta : R) :
  circuit_at (repeat 0 (S d)) d theta = rot_x (INR d * theta).
Proof.
  cbn [repeat].
  rewrite <- (repeat_length 0 d) at 2. rewrite circuit_at_phases.
  rewrite R_z_closed, rot_z_0, <- rot_x_0, W_x_closed.
  replace (INR d * theta) with (0 + INR d * theta) by ring.
  generalize 0 at 2 3.
  induction d as [ | d IH]; intros a; cbn [repeat fold_left].
  - f_equal. simpl. ring.
  - rewrite rot_x_mul, R_z_closed, rot_z_0, mmul_I2_r, IH.
    f_equal. rewrite S_INR. ring.
Qed.

(** X6: with every phase equal to 0 the circuit is the signal rotation taken
    [d] times: the first stream is [cos(d * theta)]; the second stream
    is 0 under
    convention 0 and [sin(d * theta)] under convention 1. *)
Theorem QSP_call_zero_phases (d : nat) (th : list R) :
  QSP_call (mkQSP (Z.of_nat d) 0 (repeat 0 (S d))) th =
    Ok (Some (map (fun t => cos (INR d * t)) th, map (fun _ => 0) th)) /\
  QSP_call (mkQSP (Z.of_nat d) 1 (repeat 0 (S d))) th =
    Ok (Some (map (fun t => cos (INR d * t)) th,
              map (fun t => sin (INR d * t)) th)).
Proof.
  assert (E : map (circuit_at (repeat 0 (S d)) d) th =
              map (fun t => rot_x (INR d * t)) th)
    by (apply map_ext; intros t; apply circuit_at_zero_phases).
  split;
    (rewrite (QSP_call_ok _ d);
       [ | split; [ reflexivity | apply repeat_length ] ]);
    cbn [convention phis QSP_readout Z.eqb Pos.eqb];
    rewrite E, !map_map; reflexivity.
Qed.

(** ** Parity in the input angle *)

Lemma conj_z_mmul (A B : M2) : conj_z (mmul A B) = mmul (conj_z A) (conj_z B).
Proof. m_ring. Qed.

Lemma conj_z_rot_z (phi : R) : conj_z (rot_z phi) = rot_z phi.
Proof. m_ring. Qed.

Lemma rot_x_neg (theta : R) : rot_x (- theta) = conj_z (rot_x theta).
Proof. unfold rot_x. rewrite cos_neg, sin_neg. m_ring. Qed.

Lemma conj_z_R_z (phi : R) : conj_z (R_z phi) = R_z phi.
Proof. rewrite R_z_closed. apply conj_z_rot_z. Qed.

Lemma W_x_neg (theta : R) : W_x (- theta) = conj_z (W_x theta).
Proof. rewrite !W_x_closed. apply rot_x_neg. Qed.

Lemma circuit_fold_neg (v : list R) (theta : R) (ks : list nat) :
  forall u,
    fold_left (fun u k => mmul (mmul u (W_x (- theta))) (R_z (nth k v 0)))
              ks (conj_z u) =
    conj_z (fold_left (fun u k => mmul (mmul u (W_x theta)) (R_z (nth k v 0)))
                      ks u).
Proof.
  induction ks as [ | k ks IH]; intros u; cbn [fold_left]; [ reflexivity | ].
  rewrite <- IH. f_equal.
  rewrite !conj_z_mmul, conj_z_R_z, W_x_neg. reflexivity.
Qed.

Lemma circuit_at_neg (v : list R) (d : nat) (theta : R) :
  circuit_at v d (- theta) = conj_z (circuit_at v d theta).
Proof.
  unfold circuit_at. rewrite <- circuit_fold_neg, conj_z_R_z. reflexivity.
Qed.

(** X7: negating every input angle leaves the readout of convention 0
    unchanged; under convention 1 the first stream is unchanged and the
    second changes sign. *)
Theorem QSP_call_parity (d : nat) (v : list R) (th : list R) :
  length v = S d ->
  QSP_call (mkQSP (Z.of_nat d) 0 v) (map Ropp th) =
    QSP_call (mkQSP (Z.of_nat d) 0 v) th /\
  exists re im,
    QSP_call (mkQSP (Z.of_nat d) 1 v) th = Ok (Some (re, im)) /\
    QSP_call (mkQSP (Z.of_nat d) 1 v) (map Ropp th) =
      Ok (Some (re, map Ropp im)).
Proof.
  intros Hlen.
  assert (E : map (circuit_at v d) (map Ropp th) =
              map (fun t => conj_z (circuit_at v d t)) th).
  { rewrite map_map. apply map_ext. intros t. apply circuit_at_neg. }
  split.
  - rewrite !(QSP_call_ok _ d) by (split; [ reflexivity | exact Hlen ]).
    cbn [convention phis QSP_readout Z.eqb Pos.eqb].
    rewrite E, !map_map. reflexivity.
  - eexists. eexists.
    rewrite !(QSP_call_ok _ d) by (split; [ reflexivity | exact Hlen ]).
    cbn [convention phis QSP_readout Z.eqb Pos.eqb].
    split; [ reflexivity | ].
    rewrite E, !map_map. reflexivity.
Qed.

Lemma QSP_call_parity_witness :
  length [1; 2] = 2%nat /\
  QSP_call (mkQSP 1 0 [1; 2]) (map Ropp [1; 3]) =
    QSP_call (mkQSP 1 0 [1; 2]) [1; 3] /\
  exists re im,
    QSP_call (mkQSP 1 1 [1; 2]) [1; 3] = Ok (Some (re, im)) /\
    QSP_call (mkQSP 1 1 [1; 2]) (map Ropp [1; 3]) =
      Ok (Some (re, map Ropp im)).
Proof.
  split; [ reflexivity | ].
  exact (QSP_call_parity 1 [1; 2] [1; 3] eq_refl).
Defined.

(** ** Symmetry of the losses, and the largest deviation *)

Lemma Cabs_nonneg (z : C) : 0 <= Cabs z.
Proof. apply sqrt_pos. Qed.

Lemma Cabs_sub_sym (a b : C) : Cabs (Csub a b) = Cabs (Csub b a).
Proof. unfold Cabs, Csub. cbn [Re Im]. f_equal. ring. Qed.

Lemma tf_abs_zip_sym (t : list C) :
  forall p, tf_abs (zip_with Csub t p) = tf_abs (zip_with Csub p t).
Proof.
  unfold tf_abs, zip_with.
  induction t as [ | x t IH]; intros [ | y p]; cbn [combine map fst snd];
    try reflexivity.
  rewrite IH, Cabs_sub_sym. reflexivity.
Qed.

Lemma deviations_sym {A : Type} (g : list R -> A) (t p : list C) :
  bind (tf_subtract t p) (fun d => Ok (g (tf_abs d))) =
  bind (tf_subtract p t) (fun d => Ok (g (tf_abs d))).
Proof.
  unfold tf_subtract. rewrite (Nat.eqb_sym (length p) (length t)).
  destruct (Nat.eqb (length t) (length p)) eqn:E.
  - cbn [bind]. rewrite tf_abs_zip_sym. reflexivity.
  - destruct t as [ | x [ | x' t']], p as [ | y [ | y' p']];
      cbn in E; try discriminate; cbn [bind]; try reflexivity;
      do 2 f_equal; unfold tf_abs; rewrite !map_map;
      apply map_ext; intros z; apply Cabs_sub_sym.
Qed.

(** X9: each of the four losses is symmetric in its two arguments, errors
    included. *)
Theorem losses_symmetric (t p : list C) :
  mean_deviation t p = mean_deviation p t /\
  max_deviation t p = max_deviation p t /\
  mean_deviation_squared t p = mean_deviation_squared p t /\
  max_deviation_squared t p = max_deviation_squared p t.
Proof.
  split; [ exact (deviations_sym reduce_mean t p) | ].
  split; [ exact (deviations_sym reduce_max t p) | ].
  split; [ exact (deviations_sym (fun d => reduce_mean (tf_square d)) t p) | ].
  exact (deviations_sym (fun d => reduce_max (tf_square d)) t p).
Qed.

Lemma Rmax_square (x a : R) :
  0 <= x -> 0 <= a -> Rmax (x * x) (a * a) = Rmax x a * Rmax x a.
Proof.
  intros Hx Ha. unfold Rmax.
  destruct (Rle_dec (x * x) (a * a)), (Rle_dec x a); try reflexivity; nra.
Qed.

Lemma fold_Rmax_square (l : list R) :
  Forall (fun a => 0 <= a) l ->
  forall x, 0 <= x ->
    fold_left Rmax (map (fun a => a * a) l) (x * x) =
    fold_left Rmax l x * fold_left Rmax l x.
Proof.
  induction 1 as [ | a l Ha _ IH]; intros x Hx; cbn [map fold_left];
    [ reflexivity | ].
  rewrite (Rmax_square x a Hx Ha). apply IH.
  apply Rle_trans with x; [ exact Hx | apply Rmax_l ].
Qed.

(** X10: the largest squared deviation is the square of the largest
    deviation. *)
Theorem max_deviation_squared_is_square (t p : list C) (m : R) :
  max_deviation t p = Ok (Fin m) ->
  max_deviation_squared t p = Ok (Fin (m * m)).
Proof.
  unfold max_deviation, max_deviation_squared.
  destruct (tf_subtract t p) as [d | e]; cbn [bind]; [ | discriminate ].
  destruct d as [ | z d]; cbn [tf_abs tf_square map reduce_max];
    [ discriminate | ].
  intros [= <-]. do 2 f_equal.
  apply fold_Rmax_square; [ | apply Cabs_nonneg ].
  apply Forall_forall. intros a Ha. apply in_map_iff in Ha.
  destruct Ha as [c [<- _]]. apply Cabs_nonneg.
Qed.

Lemma max_deviation_squared_is_square_witness :
  max_deviation [Cone; Cimag] [Czero; Czero] = Ok (Fin 1) /\
  max_deviation_squared [Cone; Cimag] [Czero; Czero] = Ok (Fin (1 * 1)).
Proof.
  assert (H : max_deviation [Cone; Cimag] [Czero; Czero] = Ok (Fin 1))
    by exact (proj1 (proj2 losses_literal_batch)).
  split; [ exact H | ].
  exact (max_deviation_squared_is_square _ _ 1 H).
Defined.

(** ** When the builder succeeds, and what it then returns *)

(** A returned model was built from a layer that could be traced, and
    from a bound [loss]. *)
Lemma construct_qsp_model_inv (draw : nat -> R) (theta_input : list R)
  (pd conv : Z) (lr : R) (mean_or_max squared : Z) (m : Model) :
  construct_qsp_model draw theta_input pd conv lr mean_or_max squared = Ok m ->
  (0 <= pd)%Z /\ (conv = 0 \/ conv = 1)%Z /\
  exists f,
    select_loss mean_or_max squared = Some f /\
    m = mkModel (mkQSP pd conv (map draw (seq 0 (S (Z.to_nat pd))))) lr f conv.
Proof.
  intros Hm.
  assert (Hpd : (0 <= pd)%Z).
  { destruct (Z_lt_ge_dec pd (-1)) as [H | H].
    - rewrite (construct_qsp_model_low _ _ _ _ _ _ _ H) in Hm. discriminate.
    - destruct (Z.eq_dec pd (-1)) as [-> | H']; [ | lia ].
      rewrite construct_qsp_model_minus_one in Hm. discriminate. }
  assert (Hc : (conv = 0 \/ conv = 1)%Z).
  { destruct (Z.eq_dec conv 0) as [H0 | H0]; [ left; exact H0 | ].
    destruct (Z.eq_dec conv 1) as [H1 | H1]; [ right; exact H1 | ].
    rewrite (construct_qsp_model_bad_convention _ _ _ _ _ _ _ Hpd H0 H1) in Hm.
    discriminate. }
  split; [ exact Hpd | ]. split; [ exact Hc | ].
  unfold construct_qsp_model in Hm.
  rewrite <- (Z2Nat.id pd Hpd), QSP_init_ok in Hm at 1. cbn [bind] in Hm.
  rewrite (trace_graph_ok _ _ _ (QSP_init_wf draw (Z.to_nat pd) conv)) in Hm.
  destruct (forward_graph_ok _ (Z.to_nat pd) theta_input
              (QSP_init_wf draw (Z.to_nat pd) conv) Hc)
    as [re0 [im0 [_ [_ [_ [out0 [E _]]]]]]].
  rewrite E in Hm. cbn [bind] in Hm.
  destruct (select_loss mean_or_max squared) as [f | ];
    cbn [read_local bind] in Hm; [ | discriminate ].
  injection Hm as <-. exists f. rewrite (Z2Nat.id pd Hpd).
  split; reflexivity.
Qed.

(** X12: the builder returns a model only for valid arguments: a success means
    [poly_deg >= 0] and convention, [mean_or_max] and [squared] all in
    {0,1}; the model then owns a fresh layer with [poly_deg + 1] phases,
    and records the learning rate and the convention. *)
Theorem construct_qsp_model_success (draw : nat -> R) (theta_input : list R)
  (pd conv : Z) (lr : R) (mean_or_max squared : Z) (m : Model) :
  construct_qsp_model draw theta_input pd conv lr mean_or_max squared = Ok m ->
  ((0 <= pd) /\ (conv = 0 \/ conv = 1) /\
   (mean_or_max = 0 \/ mean_or_max = 1) /\ (squared = 0 \/ squared = 1))%Z /\
  model_layer m = mkQSP pd conv (map draw (seq 0 (S (Z.to_nat pd)))) /\
  model_learning_rate m = lr /\
  model_convention m = conv.
Proof.
  intros Hm.
  destruct (construct_qsp_model_inv _ _ _ _ _ _ _ _ Hm)
    as [Hpd [Hc [f [Hsel ->]]]].
  cbn [model_layer model_learning_rate model_convention].
  split; [ | split; [ reflexivity | split; reflexivity ] ].
  split; [ exact Hpd | ]. split; [ exact Hc | ].
  unfold select_loss in Hsel.
  destruct (Z.eqb_spec mean_or_max 0) as [M0 | M0];
    [ | destruct (Z.eqb_spec mean_or_max 1) as [M1 | M1];
        [ | discriminate ] ];
    (destruct (Z.eqb_spec squared 0) as [S0 | S0];
       [ | destruct (Z.eqb_spec squared 1) as [S1 | S1];
           [ | discriminate ] ]);
    auto.
Qed.

Lemma construct_qsp_model_success_witness :
  construct_qsp_model INR [] 1 0 (1 / 100) 0 1 =
    Ok (mkModel (mkQSP 1 0 [INR 0; INR 1]) (1 / 100) mean_deviation_squared 0) /\
  ((0 <= 1) /\ (0 = 0 \/ 0 = 1) /\ (0 = 0 \/ 0 = 1) /\ (1 = 0 \/ 1 = 1))%Z.
Proof.
  assert (H : construct_qsp_model INR [] 1 0 (1 / 100) 0 1 =
              Ok (mkModel (mkQSP 1 0 [INR 0; INR 1]) (1 / 100)
                          mean_deviation_squared 0)) by reflexivity.
  split; [ exact H | ].
  exact (proj1 (construct_qsp_model_success INR [] 1 0 (1 / 100) 0 1 _ H)).
Defined.


